(** * seeze2.0 storefront mock-up: the chat widget and the product grid

    A shallow embedding of the two stateful React components of the
    front end,

      - [ChatAssistant]  (the scripted chat exchange: [useState] cells
        [messages] and [inputValue], the handler [handleSendMessage] and the
        [setTimeout] callback that appends the canned reply), and
      - [ProductGrid]    (the [useState] cells [viewMode] and [sortBy] and the
        [products.map] that renders the catalogue),

    together with the properties of the session log that the design
    document states about them. *)

From Stdlib Require Import List Arith Lia NArith Bool Ascii String Sorted.
Import ListNotations.

Set Implicit Arguments.

(** ** JavaScript strings

    A JavaScript string is a finite sequence of UTF-16 code units.  The
    literals of the source are all ASCII and are written as Rocq strings. *)
Module JS.

Definition jsstring := list N.

Fixpoint lit (s : string) : jsstring :=
  match s with
  | EmptyString => []
  | String a r => N_of_ascii a :: lit r
  end.

Fixpoint eqb (a b : jsstring) : bool :=
  match a, b with
  | [], [] => true
  | x :: a', y :: b' => N.eqb x y && eqb a' b'
  | _, _ => false
  end.

(** ECMAScript [WhiteSpace] and [LineTerminator] code points, the ones
    [String.prototype.trim] strips: TAB, LF, VT, FF, CR, SP, NBSP, the
    Unicode space separators and ZWNBSP. *)
Definition isWhiteSpace (c : N) : bool :=
  ((9 <=? c) && (c <=? 13)
   || (c =? 32) || (c =? 160) || (c =? 5760)
   || ((8192 <=? c) && (c <=? 8202))
   || (c =? 8232) || (c =? 8233) || (c =? 8239) || (c =? 8287)
   || (c =? 12288) || (c =? 65279))%N.

Fixpoint trimStart (s : jsstring) : jsstring :=
  match s with
  | [] => []
  | c :: r => if isWhiteSpace c then trimStart r else s
  end.

Definition trimEnd (s : jsstring) : jsstring := rev (trimStart (rev s)).

(** [String.prototype.trim]. *)
Definition trim (s : jsstring) : jsstring := trimEnd (trimStart s).

(** [!s] on a string: only the empty string is falsy. *)
Definition not_ (s : jsstring) : bool :=
  match s with
  | [] => true
  | _ :: _ => false
  end.

End JS.

(** ** The chat widget *)
Module ChatAssistant.
Import JS.

(** [interface Message]; [timestamp] is the reading of the clock in
    milliseconds. *)
Record Message := {
  id : nat;
  content : jsstring;
  isBot : bool;
  timestamp : nat
}.

Definition greeting : jsstring :=
  lit "Hello! I'm your shopping assistant. How can I help you find the perfect product today?".

(** [initialMessages], built once when the module is loaded, at time [t0]. *)
Definition initialMessages (t0 : nat) : list Message :=
  [ {| id := 1; content := greeting; isBot := true; timestamp := t0 |} ].

(** The two [useState] cells of the component.  A value of this type is
    also what one render of the component closes over. *)
Record State := {
  messages : list Message;
  inputValue : jsstring
}.

(** A pending [setTimeout] callback.  The only callback the component ever
    registers is the one of [handleSendMessage]; it closes over the
    [messages] constant of the render in which the handler was created. *)
Record Timer := {
  due : nat;
  closure_messages : list Message
}.

(** The component together with the host's clock and timer queue (in
    registration order). *)
Record World := {
  state : State;
  now : nat;
  timers : list Timer
}.

(** [setMessages(updater)] and [setInputValue(value)]. *)
Definition setMessages (updater : list Message -> list Message) (w : World) : World :=
  {| state := {| messages := updater (messages (state w));
                 inputValue := inputValue (state w) |};
     now := now w;
     timers := timers w |}.

Definition setInputValue (value : jsstring) (w : World) : World :=
  {| state := {| messages := messages (state w); inputValue := value |};
     now := now w;
     timers := timers w |}.

(** [setTimeout(callback, delay)], for the callback closing over [captured]. *)
Definition setTimeout (captured : list Message) (delay : nat) (w : World) : World :=
  {| state := state w;
     now := now w;
     timers := timers w ++ [ {| due := now w + delay; closure_messages := captured |} ] |}.

Definition replyText : jsstring :=
  lit "I understand you're looking for that. Let me help you find the best options based on your preferences and budget.".

(** The object [userMessage] of [handleSendMessage], for the render [r],
    built at time [t]. *)
Definition userMessage (r : State) (t : nat) : Message :=
  {| id := List.length (messages r) + 1;
     content := inputValue r;
     isBot := false;
     timestamp := t |}.

(** The object [botResponse] of the timer callback: [messages] is the
    constant the callback closed over, [t] the time at which it runs. *)
Definition botResponse (captured : list Message) (t : nat) : Message :=
  {| id := List.length captured + 2;
     content := replyText;
     isBot := true;
     timestamp := t |}.

(** [handleSendMessage] as created by the render [r] (its [messages] and
    [inputValue] are the constants of that render), run in the world [w]. *)
Definition handleSendMessage (r : State) (w : World) : World :=
  if not_ (trim (inputValue r)) then w
  else
    let w1 := setMessages (fun prev => prev ++ [userMessage r (now w)]) w in
    let w2 := setTimeout (messages r) 1000 w1 in
    setInputValue [] w2.

(** [handleKeyPress]: only the Enter key sends. *)
Definition handleKeyPress (r : State) (key : jsstring) (w : World) : World :=
  if eqb key (lit "Enter") then handleSendMessage r w else w.

(** The timer callback of [t] runs, no earlier than it is due. *)
Definition fire (t : Timer) (w : World) : World :=
  let at_ := Nat.max (now w) (due t) in
  setMessages (fun prev => prev ++ [botResponse (closure_messages t) at_])
    {| state := state w; now := at_; timers := timers w |}.

Definition isDue (target : nat) (t : Timer) : bool := due t <=? target.

(** [ms] milliseconds pass: the callbacks that fall due run, in
    registration order, and the others stay queued. *)
Definition elapse (ms : nat) (w : World) : World :=
  let target := now w + ms in
  let w' := fold_left (fun acc t => fire t acc)
              (filter (isDue target) (timers w))
              {| state := state w; now := now w;
                 timers := filter (fun t => negb (isDue target t)) (timers w) |} in
  {| state := state w'; now := target; timers := timers w' |}.

(** What can happen to a mounted component: the input's [onChange], a key
    press in the input, a click on the send button, and time passing.  The
    handlers that run are those of the latest render, so they close over the
    current state. *)
Inductive event :=
| Change (value : jsstring)
| KeyPress (key : jsstring)
| Click
| Elapse (ms : nat).

Definition step (w : World) (e : event) : World :=
  match e with
  | Change value => setInputValue value w
  | KeyPress key => handleKeyPress (state w) key w
  | Click => handleSendMessage (state w) w
  | Elapse ms => elapse ms w
  end.

Definition run (es : list event) (w : World) : World := fold_left step es w.

(** The component as mounted at time [t0]:
    [useState(initialMessages)] and [useState("")]. *)
Definition mount (t0 : nat) : World :=
  {| state := {| messages := initialMessages t0; inputValue := [] |};
     now := t0;
     timers := [] |}.

Definition reachable (w : World) : Prop :=
  exists t0 es, w = run es (mount t0).

Definition ids (w : World) : list nat := map id (messages (state w)).

(** A render whose input passes the guard of [handleSendMessage]. *)
Definition accepted (r : State) : Prop := not_ (trim (inputValue r)) = false.

Definition rejected (r : State) : Prop := not_ (trim (inputValue r)) = true.

(** The messages that the callbacks of [l] append when they run one after
    the other, the first of them with the clock at [c]. *)
Fixpoint replies (c : nat) (l : list Timer) : list Message :=
  match l with
  | [] => []
  | t :: l' =>
      botResponse (closure_messages t) (Nat.max c (due t))
        :: replies (Nat.max c (due t)) l'
  end.

Definition countBot (l : list Message) : nat :=
  List.length (filter isBot l).

Definition countUser (l : list Message) : nat :=
  List.length (filter (fun m => negb (isBot m)) l).

(** The message at the end of the log. *)
Definition latest (w : World) : option Message :=
  hd_error (rev (messages (state w))).

(** No bot message comes before the user message it answers: in every
    prefix of the log, the bot messages are at most the greeting and one
    reply per user message. *)
Definition replies_follow (l : list Message) : Prop :=
  forall n, countBot (firstn n l) <= countUser (firstn n l) + 1.

(** Replies and pending callbacks together match the user messages. *)
Definition balanced (w : World) : Prop :=
  countBot (messages (state w)) + List.length (timers w)
  = countUser (messages (state w)) + 1
  /\ replies_follow (messages (state w)).

(** The queue holds the callbacks in the order in which they fall due, so
    running them in registration order is running them in time order. *)
Definition due_le (a b : Timer) : Prop := due a <= due b.

Definition timers_in_order (w : World) : Prop :=
  StronglySorted due_le (timers w).

(** Every queued callback is due in the future, at most one delay away. *)
Definition timers_pending (w : World) : Prop :=
  Forall (fun t => now w < due t <= now w + 1000) (timers w).

End ChatAssistant.

(** ** The product grid *)
Module ProductGrid.
Import JS.

(** [interface Product].  The two fractional fields are decimal literals
    in the source and are kept as fixed-point numbers: [price] in
    hundredths, [rating] in tenths. *)
Record Product := {
  id : nat;
  name : jsstring;
  price : N;
  rating : N;
  reviews : N;
  image : jsstring;
  category : jsstring;
  badge : option jsstring
}.

Definition headphonesImg : jsstring := lit "@/assets/headphones.jpg".
Definition laptopImg : jsstring := lit "@/assets/laptop.jpg".
Definition smartphoneImg : jsstring := lit "@/assets/smartphone.jpg".
Definition mugImg : jsstring := lit "@/assets/mug.jpg".

Definition products : list Product :=
  [ {| id := 1; name := lit "Premium Wireless Headphones"; price := 29999;
       rating := 48; reviews := 256; image := headphonesImg;
       category := lit "Electronics"; badge := Some (lit "Best Seller") |};
    {| id := 2; name := lit "Ultra-Slim Laptop Pro"; price := 129999;
       rating := 49; reviews := 189; image := laptopImg;
       category := lit "Electronics"; badge := None |};
    {| id := 3; name := lit "Smart Phone X1"; price := 89999;
       rating := 47; reviews := 342; image := smartphoneImg;
       category := lit "Electronics"; badge := Some (lit "New") |};
    {| id := 4; name := lit "Minimalist Coffee Mug"; price := 2499;
       rating := 46; reviews := 128; image := mugImg;
       category := lit "Home"; badge := None |};
    {| id := 5; name := lit "Premium Wireless Headphones Pro"; price := 39999;
       rating := 49; reviews := 445; image := headphonesImg;
       category := lit "Electronics"; badge := Some (lit "Premium") |};
    {| id := 6; name := lit "Gaming Laptop Elite"; price := 179999;
       rating := 48; reviews := 267; image := laptopImg;
       category := lit "Electronics"; badge := None |} ].

(** The type ["grid" | "list"] of [viewMode]. *)
Inductive ViewMode := ViewGrid | ViewList.


(** The two [useState] cells: [useState<"grid" | "list">("grid")] and
    [useState("featured")]. *)
Record State := {
  viewMode : ViewMode;
  sortBy : jsstring
}.

Definition initial : State :=
  {| viewMode := ViewGrid; sortBy := lit "featured" |}.

(** The [SelectItem]s of the sort control: value and label, in order. *)
Definition selectItems : list (jsstring * jsstring) :=
  [ (lit "featured", lit "Featured");
    (lit "price-low", lit "Price: Low to High");
    (lit "price-high", lit "Price: High to Low");
    (lit "rating", lit "Highest Rated");
    (lit "newest", lit "Newest") ].

(** One [Card] of the grid, as [products.map] builds it.  The badge span
    is there only when [product.badge] is truthy: a missing badge and an
    empty one both show none. *)
Record Card := {
  key : nat;
  img_src : jsstring;
  img_alt : jsstring;
  badge_span : option jsstring;
  heading : jsstring;
  stars : list bool;
  rating_shown : N;
  reviews_shown : N;
  price_shown : N
}.

(** The five stars: star [i] is filled when [i < Math.floor(product.rating)]. *)
Definition renderStars (p : Product) : list bool :=
  map (fun i => (i <? rating p / 10)%N) [0; 1; 2; 3; 4]%N.

Definition renderCard (p : Product) : Card :=
  {| key := id p;
     img_src := image p;
     img_alt := name p;
     badge_span := match badge p with
                   | Some b => if not_ b then None else Some b
                   | None => None
                   end;
     heading := name p;
     stars := renderStars p;
     rating_shown := rating p;
     reviews_shown := reviews p;
     price_shown := price p |}.

Inductive Variant := Default | Ghost.

(** What one render of the component shows. *)
Record View := {
  item_count : nat;
  select_value : jsstring;
  select_items : list (jsstring * jsstring);
  grid_button : Variant;
  list_button : Variant;
  grid_className : jsstring;
  cards : list Card
}.

Definition isGrid (v : ViewMode) : bool :=
  match v with ViewGrid => true | ViewList => false end.

Definition isList (v : ViewMode) : bool :=
  match v with ViewGrid => false | ViewList => true end.

Definition render (s : State) : View :=
  {| item_count := List.length products;
     select_value := sortBy s;
     select_items := selectItems;
     grid_button := if isGrid (viewMode s) then Default else Ghost;
     list_button := if isList (viewMode s) then Default else Ghost;
     grid_className :=
       lit "grid " ++
       (if isGrid (viewMode s)
        then lit "grid-cols-1 md:grid-cols-2 lg:grid-cols-3 xl:grid-cols-4 gap-6"
        else lit "grid-cols-1 gap-4");
     cards := map renderCard products |}.

Definition setViewMode (v : ViewMode) (s : State) : State :=
  {| viewMode := v; sortBy := sortBy s |}.

Definition setSortBy (value : jsstring) (s : State) : State :=
  {| viewMode := viewMode s; sortBy := value |}.

(** The inputs the component reacts to: the user picks the [n]-th
    [SelectItem] (the control then calls [onValueChange] with that item's
    value), or clicks one of the two layout buttons. *)
Inductive event :=
| PickItem (n : nat)
| ClickGrid
| ClickList.

Definition step (s : State) (e : event) : State :=
  match e with
  | PickItem n =>
      match nth_error selectItems n with
      | Some (value, _) => setSortBy value s
      | None => s
      end
  | ClickGrid => setViewMode ViewGrid s
  | ClickList => setViewMode ViewList s
  end.

Definition run (es : list event) : State := fold_left step es initial.


End ProductGrid.

(** ** Vocabulary for the session log and the grid controls *)
Module Session.
Import JS ChatAssistant.

Definition userMessages (l : list Message) : list Message :=
  filter (fun m => negb (isBot m)) l.

Definition botMessages (l : list Message) : list Message :=
  filter isBot l.

(** The reply that the callback [t] appends when it runs the moment it is
    due. *)
Definition stamp (t : Timer) : Message :=
  botResponse (closure_messages t) (due t).

(** Id and time of a message; the id and time that the reply to a user
    message carries; the id and time that a queued callback will give its
    reply. *)
Definition label (m : Message) : nat * nat := (id m, timestamp m).

Definition answer (m : Message) : nat * nat := (id m + 1, timestamp m + 1000).

Definition promise (t : Timer) : nat * nat :=
  (List.length (closure_messages t) + 2, due t).

(** Every message of [l], the first at position [base] of the log (counted
    from 0), has an id no larger than its position counted from 1, and a user
    message has exactly that id. *)
Fixpoint numbered (base : nat) (l : list Message) : Prop :=
  match l with
  | [] => True
  | m :: l' =>
      (id m <= base + 1 /\ (isBot m = false -> id m = base + 1))
      /\ numbered (S base) l'
  end.

Definition earlier (a b : Message) : Prop := timestamp a <= timestamp b.

(** The guard of [handleSendMessage] on a text. *)
Definition passes (text : jsstring) : bool := negb (not_ (trim text)).

(** One turn of a conversation: the user types [text], clicks send and
    waits [wait] milliseconds. *)
Definition turn (t : jsstring * nat) : list event :=
  [Change (fst t); Click; Elapse (snd t)].

Definition conversation (turns : list (jsstring * nat)) : list event :=
  flat_map turn turns.

Definition sent (turns : list (jsstring * nat)) : nat :=
  List.length (filter (fun t => passes (fst t)) turns).

End Session.

(** ** Renders and their handlers

    React calls the component function again after a state change, and
    only then do the handlers close over the new [messages] and
    [inputValue].  Until that happens the handlers of the previous render
    stay attached and read its constants.  A [Component] keeps, beside the
    world, the render whose handlers are attached; [Rerender] is the moment
    React renders again.  [ChatAssistant.step] is the special case in which
    a render follows every event. *)
Module Rendering.
Import JS ChatAssistant.

Record Component := {
  world : World;
  rendered : State
}.

Inductive action :=
| Input (value : jsstring)
| Send
| Key (key : jsstring)
| Wait (ms : nat)
| Rerender.

Definition act (c : Component) (a : action) : Component :=
  match a with
  | Input value =>
      {| world := setInputValue value (world c); rendered := rendered c |}
  | Send =>
      {| world := handleSendMessage (rendered c) (world c);
         rendered := rendered c |}
  | Key key =>
      {| world := handleKeyPress (rendered c) key (world c);
         rendered := rendered c |}
  | Wait ms =>
      {| world := elapse ms (world c); rendered := rendered c |}
  | Rerender =>
      {| world := world c; rendered := state (world c) |}
  end.

Definition play (acts : list action) (c : Component) : Component :=
  fold_left act acts c.

(** The component mounted at time [t0], with its first render. *)
Definition start (t0 : nat) : Component :=
  {| world := mount t0; rendered := state (mount t0) |}.

Definition playable (c : Component) : Prop :=
  exists t0 acts, c = play acts (start t0).

Definition of_event (e : event) : action :=
  match e with
  | Change value => Input value
  | KeyPress key => Key key
  | Click => Send
  | Elapse ms => Wait ms
  end.

(** The events [es], with a render after each of them. *)
Definition rerendering (es : list event) : list action :=
  flat_map (fun e => [of_event e; Rerender]) es.

(** Every message of [l], the first at position [base] of the log (counted
    from 0), has an id no larger than its position counted from 1. *)
Fixpoint bounded (base : nat) (l : list Message) : Prop :=
  match l with
  | [] => True
  | m :: l' => id m <= base + 1 /\ bounded (S base) l'
  end.

End Rendering.

Module GridControls.
Import JS ProductGrid.

Definition isPick (e : event) : bool :=
  match e with PickItem _ => true | _ => false end.

Definition isLayout (e : event) : bool :=
  match e with PickItem _ => false | _ => true end.

(** The number of filled stars among the five of a card. *)
Definition filled (p : Product) : nat :=
  N.to_nat (N.min 5 (rating p / 10)).

End GridControls.

(** ** Facts about [trim] *)
Module JSFacts.
Import JS.

Lemma trimStart_nil_iff (s : jsstring) :
  trimStart s = [] <-> forallb isWhiteSpace s = true.
Proof.
  induction s as [|c r IH]; simpl.
  - tauto.
  - destruct (isWhiteSpace c); simpl.
    + exact IH.
    + split; discriminate.
Qed.

Lemma forallb_trimStart (s : jsstring) :
  forallb isWhiteSpace (trimStart s) = forallb isWhiteSpace s.
Proof.
  induction s as [|c r IH]; simpl; [reflexivity|].
  destruct (isWhiteSpace c) eqn:E; simpl; [exact IH|].
  now rewrite E.
Qed.

Lemma forallb_rev (f : N -> bool) (s : jsstring) :
  forallb f (rev s) = forallb f s.
Proof.
  induction s as [|c r IH]; simpl; [reflexivity|].
  rewrite forallb_app, IH. simpl.
  rewrite andb_true_r. apply andb_comm.
Qed.

Lemma rev_nil_iff (A : Type) (l : list A) : rev l = [] <-> l = [].
Proof.
  split; intros H.
  - rewrite <- (rev_involutive l), H. reflexivity.
  - subst. reflexivity.
Qed.

(** [trim] returns the empty string exactly on the strings made of white
    space only (the empty string among them). *)
Lemma trim_nil_iff (s : jsstring) :
  trim s = [] <-> forallb isWhiteSpace s = true.
Proof.
  unfold trim, trimEnd.
  rewrite <- (forallb_trimStart s), <- (forallb_rev _ (trimStart s)).
  rewrite <- trimStart_nil_iff.
  apply rev_nil_iff.
Qed.

Lemma not_true_iff (s : jsstring) : not_ s = true <-> s = [].
Proof. destruct s; simpl; split; congruence. Qed.

Lemma not_false_iff (s : jsstring) : not_ s = false <-> s <> [].
Proof. destruct s; simpl; split; congruence. Qed.

(** What [trim] keeps starts and ends with a character that is not white
    space, so a string with such a character is never trimmed to nothing. *)
Lemma trim_keeps (s : jsstring) (c : N) :
  In c s -> isWhiteSpace c = false -> trim s <> [].
Proof.
  intros Hin Hc Ht. apply trim_nil_iff in Ht.
  rewrite forallb_forall in Ht. specialize (Ht c Hin). congruence.
Qed.

End JSFacts.

(** ** Facts about the chat widget *)
Module ChatAssistantFacts.
Import JS JSFacts ChatAssistant.

Lemma handleSendMessage_rejected (r : State) (w : World) :
  rejected r -> handleSendMessage r w = w.
Proof.
  unfold rejected, handleSendMessage. intros ->. reflexivity.
Qed.

Lemma handleSendMessage_accepted (r : State) (w : World) :
  accepted r ->
  handleSendMessage r w =
  {| state := {| messages := messages (state w) ++ [userMessage r (now w)];
                 inputValue := [] |};
     now := now w;
     timers := timers w ++ [ {| due := now w + 1000;
                                closure_messages := messages r |} ] |}.
Proof.
  unfold accepted, handleSendMessage. intros ->. reflexivity.
Qed.

Lemma accepted_or_rejected (r : State) : accepted r \/ rejected r.
Proof.
  unfold accepted, rejected. destruct (not_ (trim (inputValue r))); auto.
Qed.

Lemma length_replies (c : nat) (l : list Timer) :
  List.length (replies c l) = List.length l.
Proof.
  revert c. induction l as [|t l IH]; intros c; simpl; [reflexivity|].
  now rewrite IH.
Qed.

Lemma replies_canned (c : nat) (l : list Timer) :
  Forall (fun m => isBot m = true /\ content m = replyText) (replies c l).
Proof.
  revert c. induction l as [|t l IH]; intros c; simpl; constructor; auto.
Qed.

Lemma fold_fire_messages (l : list Timer) (a : World) :
  messages (state (fold_left (fun acc t => fire t acc) l a))
  = messages (state a) ++ replies (now a) l.
Proof.
  revert a. induction l as [|t l IH]; intros a; simpl.
  - now rewrite app_nil_r.
  - rewrite IH. simpl. now rewrite <- app_assoc.
Qed.

Lemma fold_fire_inputValue (l : list Timer) (a : World) :
  inputValue (state (fold_left (fun acc t => fire t acc) l a))
  = inputValue (state a).
Proof.
  revert a. induction l as [|t l IH]; intros a; simpl; [reflexivity|].
  now rewrite IH.
Qed.

Lemma fold_fire_timers (l : list Timer) (a : World) :
  timers (fold_left (fun acc t => fire t acc) l a) = timers a.
Proof.
  revert a. induction l as [|t l IH]; intros a; simpl; [reflexivity|].
  now rewrite IH.
Qed.

Lemma elapse_messages (ms : nat) (w : World) :
  messages (state (elapse ms w))
  = messages (state w) ++ replies (now w) (filter (isDue (now w + ms)) (timers w)).
Proof. unfold elapse. simpl. now rewrite fold_fire_messages. Qed.

Lemma elapse_inputValue (ms : nat) (w : World) :
  inputValue (state (elapse ms w)) = inputValue (state w).
Proof. unfold elapse. simpl. now rewrite fold_fire_inputValue. Qed.

Lemma elapse_timers (ms : nat) (w : World) :
  timers (elapse ms w) = filter (fun t => negb (isDue (now w + ms) t)) (timers w).
Proof. unfold elapse. simpl. now rewrite fold_fire_timers. Qed.

Lemma elapse_now (ms : nat) (w : World) : now (elapse ms w) = now w + ms.
Proof. reflexivity. Qed.

Lemma filter_all (A : Type) (f : A -> bool) (l : list A) :
  Forall (fun x => f x = true) l -> filter f l = l.
Proof.
  induction 1 as [|x l Hx _ IH]; simpl; [reflexivity|].
  now rewrite Hx, IH.
Qed.

Lemma filter_none (A : Type) (f : A -> bool) (l : list A) :
  Forall (fun x => f x = false) l -> filter f l = [].
Proof.
  induction 1 as [|x l Hx _ IH]; simpl; [reflexivity|].
  now rewrite Hx.
Qed.

Lemma run_snoc (es : list event) (e : event) (w : World) :
  run (es ++ [e]) w = step (run es w) e.
Proof. unfold run. now rewrite fold_left_app. Qed.

Lemma reachable_mount (t0 : nat) : reachable (mount t0).
Proof. exists t0, []. reflexivity. Qed.

Lemma reachable_step (w : World) (e : event) :
  reachable w -> reachable (step w e).
Proof.
  intros (t0 & es & ->). exists t0, (es ++ [e]). now rewrite run_snoc.
Qed.

(** Induction over the events that lead to a reachable world. *)
Lemma reachable_ind (P : World -> Prop) :
  (forall t0, P (mount t0)) ->
  (forall w e, reachable w -> P w -> P (step w e)) ->
  forall w, reachable w -> P w.
Proof.
  intros Hm Hs w (t0 & es & ->).
  induction es as [|e es IH] using rev_ind.
  - apply Hm.
  - rewrite run_snoc. apply Hs; [|exact IH].
    exists t0, es. reflexivity.
Qed.

Lemma handleSendMessage_pending (r : State) (w : World) :
  timers_pending w -> timers_pending (handleSendMessage r w).
Proof.
  intros H. destruct (accepted_or_rejected r) as [Ha|Hr].
  - rewrite (handleSendMessage_accepted w Ha).
    unfold timers_pending in *. simpl.
    apply Forall_app. split; [exact H|].
    constructor; [simpl; lia|constructor].
  - now rewrite (handleSendMessage_rejected w Hr).
Qed.

Lemma elapse_pending (ms : nat) (w : World) :
  timers_pending w -> timers_pending (elapse ms w).
Proof.
  unfold timers_pending. intros H.
  rewrite elapse_timers, elapse_now.
  rewrite Forall_forall in *. intros t Ht.
  apply filter_In in Ht. destruct Ht as [Hin Hd].
  specialize (H t Hin). unfold isDue in Hd.
  apply negb_true_iff, Nat.leb_gt in Hd. lia.
Qed.

Lemma step_pending (w : World) (e : event) :
  timers_pending w -> timers_pending (step w e).
Proof.
  intros H. destruct e as [value|key| |ms]; simpl.
  - exact H.
  - unfold handleKeyPress. destruct (eqb key (lit "Enter")).
    + now apply handleSendMessage_pending.
    + exact H.
  - now apply handleSendMessage_pending.
  - now apply elapse_pending.
Qed.

Lemma reachable_pending (w : World) : reachable w -> timers_pending w.
Proof.
  revert w. apply reachable_ind.
  - intros t0. constructor.
  - intros w e _. apply step_pending.
Qed.

Lemma replies_snoc (l : list Timer) (c : nat) (t : Timer) :
  c <= due t ->
  Forall (fun x => due x <= due t) l ->
  replies c (l ++ [t])
  = replies c l ++ [botResponse (closure_messages t) (due t)].
Proof.
  revert c. induction l as [|x l IH]; intros c Hc Hl; simpl.
  - now rewrite Nat.max_r.
  - inversion Hl as [|? ? Hx Hl']; subst.
    rewrite IH; [reflexivity|lia|exact Hl'].
Qed.

(** Once a full delay has passed, every queued callback has run. *)
Lemma pending_all_due (w : World) :
  timers_pending w ->
  filter (isDue (now w + 1000)) (timers w) = timers w
  /\ filter (fun t => negb (isDue (now w + 1000) t)) (timers w) = [].
Proof.
  unfold timers_pending. intros H. split.
  - apply filter_all. eapply Forall_impl; [|exact H].
    intros t Ht. cbv beta in Ht. unfold isDue. apply Nat.leb_le. lia.
  - apply filter_none. eapply Forall_impl; [|exact H].
    intros t Ht. cbv beta in Ht. unfold isDue.
    apply negb_false_iff, Nat.leb_le. lia.
Qed.

Lemma keypress_enter (w : World) :
  step w (KeyPress (lit "Enter")) = step w Click.
Proof. reflexivity. Qed.

Lemma countBot_app (l l' : list Message) :
  countBot (l ++ l') = countBot l + countBot l'.
Proof. unfold countBot. now rewrite filter_app, length_app. Qed.

Lemma countUser_app (l l' : list Message) :
  countUser (l ++ l') = countUser l + countUser l'.
Proof. unfold countUser. now rewrite filter_app, length_app. Qed.

Lemma countBot_replies (c : nat) (l : list Timer) :
  countBot (replies c l) = List.length l.
Proof.
  revert c. induction l as [|t l IH]; intros c; [reflexivity|].
  unfold countBot in *. simpl. now rewrite IH.
Qed.

Lemma countUser_replies (c : nat) (l : list Timer) :
  countUser (replies c l) = 0.
Proof.
  revert c. induction l as [|t l IH]; intros c; [reflexivity|].
  unfold countUser in *. simpl. apply IH.
Qed.

Lemma countBot_firstn (n : nat) (l : list Message) :
  countBot (firstn n l) <= countBot l.
Proof.
  revert n. induction l as [|m l IH]; intros [|n]; simpl; try lia.
  - unfold countBot. simpl. lia.
  - specialize (IH n). unfold countBot in *. simpl.
    destruct (isBot m); simpl; lia.
Qed.

Lemma replies_follow_app (l x : list Message) :
  replies_follow l ->
  countBot l + countBot x <= countUser l + 1 ->
  replies_follow (l ++ x).
Proof.
  intros Hl Hx n. rewrite firstn_app, countBot_app, countUser_app.
  destruct (Nat.le_gt_cases n (List.length l)) as [Hn|Hn].
  - replace (n - List.length l) with 0 by lia. simpl.
    specialize (Hl n). unfold countBot, countUser in *. simpl. lia.
  - rewrite firstn_all2 by lia.
    pose proof (countBot_firstn (n - List.length l) x). lia.
Qed.

Lemma filter_split_length (A : Type) (f : A -> bool) (l : list A) :
  List.length (filter f l) + List.length (filter (fun x => negb (f x)) l)
  = List.length l.
Proof.
  induction l as [|x l IH]; simpl; [reflexivity|].
  destruct (f x); simpl; lia.
Qed.

Lemma handleSendMessage_balanced (w : World) :
  balanced w -> balanced (handleSendMessage (state w) w).
Proof.
  intros [Hc Hf]. destruct (accepted_or_rejected (state w)) as [Ha|Hr].
  - rewrite (handleSendMessage_accepted w Ha). split; simpl.
    + rewrite countBot_app, countUser_app, length_app.
      unfold countBot, countUser in *. simpl. lia.
    + apply replies_follow_app; [exact Hf|].
      unfold countBot, countUser in *. simpl. lia.
  - rewrite (handleSendMessage_rejected w Hr). now split.
Qed.

Lemma elapse_balanced (ms : nat) (w : World) :
  balanced w -> balanced (elapse ms w).
Proof.
  intros [Hc Hf].
  pose proof (filter_split_length (isDue (now w + ms)) (timers w)) as Hs.
  split.
  - rewrite elapse_messages, elapse_timers.
    rewrite countBot_app, countUser_app, countBot_replies, countUser_replies.
    lia.
  - rewrite elapse_messages. apply replies_follow_app; [exact Hf|].
    rewrite countBot_replies. lia.
Qed.

Lemma reachable_balanced (w : World) : reachable w -> balanced w.
Proof.
  revert w. apply reachable_ind.
  - intros t0. split; [reflexivity|].
    intros [|[|n]]; unfold countBot, countUser; simpl; lia.
  - intros w e _ H. destruct e as [value|key| |ms]; simpl.
    + exact H.
    + unfold handleKeyPress. destruct (eqb key (lit "Enter")).
      * now apply handleSendMessage_balanced.
      * exact H.
    + now apply handleSendMessage_balanced.
    + now apply elapse_balanced.
Qed.

Lemma StronglySorted_filter (A : Type) (R : A -> A -> Prop) (f : A -> bool)
    (l : list A) :
  StronglySorted R l -> StronglySorted R (filter f l).
Proof.
  induction 1 as [|x l Hl IH Hx]; simpl; [constructor|].
  destruct (f x); [|exact IH].
  constructor; [exact IH|].
  rewrite Forall_forall in *. intros y Hy.
  apply filter_In in Hy. apply Hx, Hy.
Qed.

Lemma StronglySorted_snoc (A : Type) (R : A -> A -> Prop) (l : list A) (t : A) :
  StronglySorted R l -> Forall (fun x => R x t) l ->
  StronglySorted R (l ++ [t]).
Proof.
  induction 1 as [|x l Hl IH Hx]; intros Ht; simpl.
  - constructor; constructor.
  - inversion Ht as [|? ? Hxt Ht']; subst.
    constructor; [now apply IH|].
    apply Forall_app. split; [exact Hx|]. constructor; [exact Hxt|constructor].
Qed.

Lemma handleSendMessage_in_order (r : State) (w : World) :
  timers_pending w -> timers_in_order w ->
  timers_in_order (handleSendMessage r w).
Proof.
  intros Hp Ho. destruct (accepted_or_rejected r) as [Ha|Hr].
  - rewrite (handleSendMessage_accepted w Ha).
    unfold timers_in_order. cbn [timers].
    apply StronglySorted_snoc; [exact Ho|].
    eapply Forall_impl; [|exact Hp].
    intros t Ht. unfold due_le. simpl in *. lia.
  - now rewrite (handleSendMessage_rejected w Hr).
Qed.

Lemma reachable_in_order (w : World) : reachable w -> timers_in_order w.
Proof.
  revert w. apply reachable_ind.
  - intros t0. constructor.
  - intros w e Hr Ho. pose proof (reachable_pending Hr) as Hp.
    destruct e as [value|key| |ms]; cbn [step].
    + exact Ho.
    + unfold handleKeyPress. destruct (eqb key (lit "Enter")).
      * now apply handleSendMessage_in_order.
      * exact Ho.
    + now apply handleSendMessage_in_order.
    + unfold timers_in_order. rewrite elapse_timers.
      now apply StronglySorted_filter.
Qed.

Lemma step_appends (w : World) (e : event) :
  exists suffix,
    messages (state (step w e)) = messages (state w) ++ suffix.
Proof.
  assert (Hs : forall r, exists suffix,
             messages (state (handleSendMessage r w))
             = messages (state w) ++ suffix).
  { intros r. destruct (accepted_or_rejected r) as [Ha|Hr].
    - rewrite (handleSendMessage_accepted w Ha). simpl. eauto.
    - rewrite (handleSendMessage_rejected w Hr).
      exists []. now rewrite app_nil_r. }
  destruct e as [value|key| |ms]; cbn [step].
  - exists []. now rewrite app_nil_r.
  - unfold handleKeyPress. destruct (eqb key (lit "Enter")).
    + apply Hs.
    + exists []. now rewrite app_nil_r.
  - apply Hs.
  - rewrite elapse_messages. eauto.
Qed.

Lemma run_appends (es : list event) (w : World) :
  exists suffix,
    messages (state (run es w)) = messages (state w) ++ suffix.
Proof.
  induction es as [|e es IH] using rev_ind.
  - exists []. simpl. now rewrite app_nil_r.
  - rewrite run_snoc. destruct IH as [s1 H1].
    destruct (step_appends (run es w) e) as [s2 H2].
    exists (s1 ++ s2). now rewrite H2, H1, app_assoc.
Qed.

End ChatAssistantFacts.

(** ** The conversation session: properties of the message log *)
Module ConversationSession.
Import JS JSFacts ChatAssistant ChatAssistantFacts.

Lemma latest_snoc (w : World) (l : list Message) (m : Message) :
  messages (state w) = l ++ [m] -> latest w = Some m.
Proof. unfold latest. intros ->. now rewrite rev_app_distr. Qed.

(** When no reply is in flight and the ids so far are 1..n, one whole turn
    (send, then the reply) continues the numbering with n+1 and n+2. *)
Lemma turn_ids_sequential (w : World) (n : nat) :
  accepted (state w) ->
  timers w = [] ->
  ids w = seq 1 n ->
  ids (run [Click; Elapse 1000] w) = seq 1 (n + 2).
Proof.
  intros Ha Ht Hi.
  assert (Hn : List.length (messages (state w)) = n).
  { unfold ids in Hi. rewrite <- (length_map id), Hi. apply length_seq. }
  unfold run, ids. cbn [fold_left step].
  rewrite elapse_messages, (handleSendMessage_accepted w Ha). cbn [now timers state messages].
  rewrite Ht. cbn [app filter]. unfold isDue at 1. cbn [due].
  rewrite Nat.leb_refl.
  cbn [replies closure_messages]. rewrite !map_app. fold (ids w).
  rewrite Hi. cbn [map id userMessage botResponse]. rewrite Hn.
  replace (n + 2) with (n + 1 + 1) by lia.
  rewrite (seq_app (n + 1) 1 1), (seq_app n 1 1). cbn [seq].
  rewrite <- !app_assoc. cbn [app]. f_equal.
  replace (1 + n) with (n + 1) by lia.
  replace (1 + (n + 1)) with (n + 1 + 1) by lia. reflexivity.
Qed.

(** C1.  Ids are not unique when sends overlap.  Both the user message and
    the reply take their id from the length of the [messages] constant of
    the render that created the handler; the reply's callback runs later but
    still reads that constant.  With two sends before either reply, the
    second user message and the first reply both get id 3, and whenever a
    callback runs the id it assigns is the captured length plus two, whatever
    the log holds by then. *)
Theorem in_flight_sends_repeat_an_id :
  let w := run [Change (lit "a"); KeyPress (lit "Enter");
                Change (lit "b"); KeyPress (lit "Enter");
                Elapse 1000] (mount 0) in
  map (fun m => (id m, isBot m)) (messages (state w))
  = [(1, true); (2, false); (3, false); (3, true); (4, true)]
  /\ ~ NoDup (ids w)
  /\ forall (t : Timer) (w' : World),
       option_map id (latest (fire t w'))
       = Some (List.length (closure_messages t) + 2).
Proof.
  split; [vm_compute; reflexivity|]. split.
  - vm_compute. intros H.
    inversion H as [|? ? _ H1]; subst.
    inversion H1 as [|? ? _ H2]; subst.
    inversion H2 as [|? ? H3 _]; subst.
    apply H3. left. reflexivity.
  - intros t w'.
    rewrite (@latest_snoc (fire t w') (messages (state w'))
               (botResponse (closure_messages t) (Nat.max (now w') (due t))));
      reflexivity.
Qed.

(** C3.  When the input trims to the empty string the handler returns at
    its guard: the world is left exactly as it was, so no message is
    appended, no callback is queued and the count is unchanged, whether the
    send came from the button or from the Enter key. *)
Theorem blank_input_is_ignored (r : State) (w : World) :
  trim (inputValue r) = [] ->
  handleSendMessage r w = w
  /\ (forall key, handleKeyPress r key w = w)
  /\ messages (state (handleSendMessage r w)) = messages (state w)
  /\ timers (handleSendMessage r w) = timers w
  /\ List.length (messages (state (handleSendMessage r w)))
     = List.length (messages (state w)).
Proof.
  intros Ht.
  assert (H : handleSendMessage r w = w).
  { apply handleSendMessage_rejected. unfold rejected. now rewrite Ht. }
  split; [exact H|]. split.
  - intros key. unfold handleKeyPress.
    destruct (eqb key (lit "Enter")); [exact H|reflexivity].
  - now rewrite H.
Qed.

Lemma blank_input_is_ignored_witness :
  let r := {| messages := initialMessages 0; inputValue := lit "   " |} in
  trim (inputValue r) = []
  /\ handleSendMessage r (setInputValue (lit "   ") (mount 0))
     = setInputValue (lit "   ") (mount 0).
Proof.
  intros r. split; [reflexivity|].
  exact (proj1 (@blank_input_is_ignored r (setInputValue (lit "   ") (mount 0))
                  eq_refl)).
Defined.

(** C4.  The log only grows at its end.  The send handler leaves it as it
    is or appends one message; a timer callback appends one message; typing
    does not touch it; so after any events the old log is a prefix of the new
    one.  The log starts as the greeting alone, with id 1 and from the
    assistant, and the greeting stays its first element. *)
Theorem log_is_append_only :
  (forall r w,
      messages (state (handleSendMessage r w)) = messages (state w)
      \/ exists m,
           messages (state (handleSendMessage r w)) = messages (state w) ++ [m])
  /\ (forall t w, exists m,
         messages (state (fire t w)) = messages (state w) ++ [m])
  /\ (forall value w,
         messages (state (setInputValue value w)) = messages (state w))
  /\ (forall es w, exists suffix,
         messages (state (run es w)) = messages (state w) ++ suffix)
  /\ (forall t0,
         messages (state (mount t0))
         = [ {| id := 1; content := greeting; isBot := true; timestamp := t0 |} ])
  /\ (forall t0 es,
         hd_error (messages (state (run es (mount t0))))
         = Some {| id := 1; content := greeting; isBot := true; timestamp := t0 |}).
Proof.
  split; [|split; [|split; [|split; [|split]]]].
  - intros r w. destruct (accepted_or_rejected r) as [Ha|Hr].
    + right. rewrite (handleSendMessage_accepted w Ha). simpl. eauto.
    + left. now rewrite (handleSendMessage_rejected w Hr).
  - intros t w. simpl. eauto.
  - reflexivity.
  - intros es w. apply run_appends.
  - reflexivity.
  - intros t0 es. destruct (run_appends es (mount t0)) as [suffix ->].
    reflexivity.
Qed.

(** C5.  An accepted send queues one callback due exactly 1000 ms later.
    Until then that callback is still queued; at 1000 ms it has run and the
    message at the end of the log is the reply, stamped with that time.  The
    reply's text is the one canned sentence: two sessions with whatever
    inputs end with replies of the same content. *)
Theorem reply_is_delayed_and_canned (w1 w2 : World) :
  reachable w1 -> accepted (state w1) ->
  reachable w2 -> accepted (state w2) ->
  let t := {| due := now w1 + 1000; closure_messages := messages (state w1) |} in
  timers (step w1 Click) = timers w1 ++ [t]
  /\ (forall ms, ms < 1000 -> In t (timers (run [Click; Elapse ms] w1)))
  /\ timers (run [Click; Elapse 1000] w1) = []
  /\ latest (run [Click; Elapse 1000] w1)
     = Some {| id := List.length (messages (state w1)) + 2;
               content := replyText;
               isBot := true;
               timestamp := now w1 + 1000 |}
  /\ option_map content (latest (run [Click; Elapse 1000] w1))
     = option_map content (latest (run [Click; Elapse 1000] w2)).
Proof.
  intros Hr1 Ha1 Hr2 Ha2 t.
  assert (Hlatest : forall w, reachable w -> accepted (state w) ->
            latest (run [Click; Elapse 1000] w)
            = Some (botResponse (messages (state w)) (now w + 1000))).
  { intros w Hr Ha.
    pose proof (reachable_pending Hr) as Hp.
    pose proof (reachable_pending (reachable_step Click Hr)) as Hp1.
    change (run [Click; Elapse 1000] w) with (elapse 1000 (step w Click)).
    eapply latest_snoc. rewrite elapse_messages.
    destruct (pending_all_due Hp1) as [-> _].
    cbn [step]. rewrite (handleSendMessage_accepted w Ha).
    cbn [timers now state messages].
    rewrite replies_snoc.
    - cbn [due closure_messages]. rewrite app_assoc. reflexivity.
    - simpl. lia.
    - eapply Forall_impl; [|exact Hp]. intros x Hx. simpl in *. lia. }
  split; [|split; [|split; [|split]]].
  - cbn [step]. now rewrite (handleSendMessage_accepted w1 Ha1).
  - intros ms Hms.
    change (run [Click; Elapse ms] w1) with (elapse ms (step w1 Click)).
    rewrite elapse_timers. apply filter_In. split.
    + cbn [step]. rewrite (handleSendMessage_accepted w1 Ha1). simpl.
      apply in_or_app. right. left. reflexivity.
    + cbn [step]. rewrite (handleSendMessage_accepted w1 Ha1).
      unfold isDue, t. cbn [now due].
      apply negb_true_iff, Nat.leb_gt. lia.
  - change (run [Click; Elapse 1000] w1) with (elapse 1000 (step w1 Click)).
    rewrite elapse_timers.
    apply (pending_all_due (reachable_pending (reachable_step Click Hr1))).
  - now rewrite (Hlatest w1 Hr1 Ha1).
  - now rewrite (Hlatest w1 Hr1 Ha1), (Hlatest w2 Hr2 Ha2).
Qed.

Lemma reply_is_delayed_and_canned_witness :
  let w1 := run [Change (lit "red shoes")] (mount 0) in
  let w2 := run [Change (lit "a"); Click; Elapse 400; Change (lit "blue hat")]
              (mount 5) in
  reachable w1 /\ accepted (state w1) /\ reachable w2 /\ accepted (state w2)
  /\ option_map content (latest (run [Click; Elapse 1000] w1))
     = option_map content (latest (run [Click; Elapse 1000] w2)).
Proof.
  intros w1 w2.
  assert (Hr1 : reachable w1)
    by (exists 0, [Change (lit "red shoes")]; reflexivity).
  assert (Hr2 : reachable w2)
    by (exists 5, [Change (lit "a"); Click; Elapse 400; Change (lit "blue hat")];
        reflexivity).
  assert (Ha1 : accepted (state w1)) by reflexivity.
  assert (Ha2 : accepted (state w2)) by reflexivity.
  destruct (reply_is_delayed_and_canned Hr1 Ha1 Hr2 Ha2) as (_ & _ & _ & _ & H).
  split; [exact Hr1|split; [exact Ha1|split; [exact Hr2|split; [exact Ha2|exact H]]]].
Defined.

(** C6.  Every accepted send queues exactly one callback, and a callback
    that runs always appends exactly one assistant message; there is no other
    outcome.  So in a reachable session, once a full delay has passed, no
    callback is left, no user message was added meanwhile, the assistant
    messages are the greeting and one reply per user message, and no reply
    precedes the user message it answers. *)
Theorem every_user_message_is_answered (w : World) :
  reachable w ->
  (forall r w', accepted r ->
     List.length (timers (handleSendMessage r w')) = List.length (timers w') + 1)
  /\ (forall t w',
        messages (state (fire t w'))
        = messages (state w')
            ++ [botResponse (closure_messages t) (Nat.max (now w') (due t))]
        /\ isBot (botResponse (closure_messages t) (Nat.max (now w') (due t)))
           = true)
  /\ Forall (fun t => due t <= now w + 1000) (timers w)
  /\ timers (elapse 1000 w) = []
  /\ countUser (messages (state (elapse 1000 w))) = countUser (messages (state w))
  /\ countBot (messages (state (elapse 1000 w)))
     = countUser (messages (state (elapse 1000 w))) + 1
  /\ replies_follow (messages (state (elapse 1000 w))).
Proof.
  intros Hr.
  pose proof (reachable_pending Hr) as Hp.
  assert (Ht : timers (elapse 1000 w) = []).
  { rewrite elapse_timers. apply (pending_all_due Hp). }
  destruct (reachable_balanced (reachable_step (Elapse 1000) Hr)) as [Hc Hf].
  cbn [step] in Hc, Hf.
  split; [|split; [|split; [|split; [|split; [|split]]]]].
  - intros r w' Ha. rewrite (handleSendMessage_accepted w' Ha). simpl.
    rewrite length_app. reflexivity.
  - intros t w'. split; reflexivity.
  - eapply Forall_impl; [|exact Hp]. intros t H. simpl in H. lia.
  - exact Ht.
  - rewrite elapse_messages, countUser_app, countUser_replies. lia.
  - rewrite Ht in Hc. cbn [List.length] in Hc. lia.
  - exact Hf.
Qed.

Lemma every_user_message_is_answered_witness :
  let w := run [Change (lit "a"); Click; Elapse 300; Change (lit "b"); Click]
             (mount 0) in
  reachable w
  /\ timers (elapse 1000 w) = []
  /\ countBot (messages (state (elapse 1000 w))) = 2 + 1.
Proof.
  intros w.
  assert (Hr : reachable w)
    by (exists 0, [Change (lit "a"); Click; Elapse 300; Change (lit "b"); Click];
        reflexivity).
  destruct (every_user_message_is_answered Hr) as (_ & _ & _ & Ht & _ & Hc & _).
  split; [exact Hr|split; [exact Ht|exact Hc]].
Defined.

(** C9.  An accepted send leaves the input field empty; a rejected one
    leaves it, and everything else, as it was.  The component has no state
    besides the log and the input field, and the handler does not move the
    clock. *)
Theorem send_resets_the_input (r : State) (w : World) :
  (accepted r ->
     inputValue (state (handleSendMessage r w)) = []
     /\ now (handleSendMessage r w) = now w)
  /\ (rejected r ->
       inputValue (state (handleSendMessage r w)) = inputValue (state w)
       /\ handleSendMessage r w = w).
Proof.
  split.
  - intros Ha. rewrite (handleSendMessage_accepted w Ha). split; reflexivity.
  - intros Hj. rewrite (handleSendMessage_rejected w Hj). split; reflexivity.
Qed.

Lemma send_resets_the_input_witness :
  let w1 := run [Change (lit "red shoes")] (mount 0) in
  let w2 := run [Change (lit " ")] (mount 0) in
  (accepted (state w1) /\ inputValue (state (step w1 Click)) = [])
  /\ (rejected (state w2) /\ inputValue (state (step w2 Click)) = lit " ").
Proof.
  intros w1 w2. split.
  - split; [reflexivity|].
    exact (proj1 (proj1 (send_resets_the_input (state w1) w1) eq_refl)).
  - split; [reflexivity|].
    exact (proj1 (proj2 (send_resets_the_input (state w2) w2) eq_refl)).
Defined.

(** C10.  The user message that an accepted send appends carries the input
    exactly as it was typed: the guard looks at the trimmed text, the message
    stores the untrimmed one.  Its content is therefore never empty, and white
    space around the text is kept. *)
Theorem user_message_keeps_raw_input (r : State) (w : World) :
  accepted r ->
  messages (state (handleSendMessage r w))
  = messages (state w) ++ [userMessage r (now w)]
  /\ content (userMessage r (now w)) = inputValue r
  /\ isBot (userMessage r (now w)) = false
  /\ content (userMessage r (now w)) <> []
  /\ trim (content (userMessage r (now w))) <> [].
Proof.
  intros Ha. rewrite (handleSendMessage_accepted w Ha).
  split; [reflexivity|]. split; [reflexivity|]. split; [reflexivity|]. split.
  - simpl. intros He. unfold accepted in Ha. rewrite He in Ha. discriminate.
  - simpl. apply not_false_iff. exact Ha.
Qed.

Lemma user_message_keeps_raw_input_witness :
  let w := run [Change (lit "  red shoes ")] (mount 0) in
  accepted (state w)
  /\ trim (inputValue (state w)) = lit "red shoes"
  /\ option_map content (latest (step w Click)) = Some (lit "  red shoes ").
Proof.
  intros w.
  assert (Ha : accepted (state w)) by reflexivity.
  destruct (user_message_keeps_raw_input w Ha) as (Hm & Hc & _).
  split; [exact Ha|split; [reflexivity|]].
  rewrite (@latest_snoc (step w Click) _ _ Hm). cbn [option_map].
  exact (f_equal Some Hc).
Defined.

End ConversationSession.

(** ** The product grid: what the sort and layout controls do *)
Module ProductCatalogView.
Import JS ProductGrid.

Lemma grid_run_snoc (es : list event) (e : event) :
  run (es ++ [e]) = step (run es) e.
Proof. unfold run. now rewrite fold_left_app. Qed.



(** C7.  The cards on the page are the [products] array mapped in its own
    order, whatever the sort value and the layout are: two renders always
    show the same cards, an event never changes them, and the sort choice
    only ends up as the value the select control displays. *)
Theorem sort_choice_never_reorders :
  (forall s1 s2, cards (render s1) = cards (render s2))
  /\ (forall s, cards (render s) = map renderCard products)
  /\ (forall s, map key (cards (render s)) = [1; 2; 3; 4; 5; 6])
  /\ (forall es e, cards (render (run (es ++ [e]))) = cards (render (run es)))
  /\ (forall s, select_value (render s) = sortBy s).
Proof.
  repeat split.
Qed.


End ProductCatalogView.

(** ** More about the chat widget: keys, the guard, and the log *)
Module SessionLog.
Import JS JSFacts ChatAssistant ChatAssistantFacts Session.

Lemma eqb_eq (a b : jsstring) : eqb a b = true <-> a = b.
Proof.
  revert b. induction a as [|x a IH]; intros [|y b]; simpl;
    try (split; [discriminate|congruence]); [tauto|].
  rewrite andb_true_iff, N.eqb_eq, IH. split.
  - intros [-> ->]. reflexivity.
  - intros H. inversion H. auto.
Qed.

Lemma world_eq (w1 w2 : World) :
  messages (state w1) = messages (state w2) ->
  inputValue (state w1) = inputValue (state w2) ->
  now w1 = now w2 ->
  timers w1 = timers w2 ->
  w1 = w2.
Proof.
  destruct w1 as [[m1 i1] n1 t1], w2 as [[m2 i2] n2 t2]. simpl.
  intros -> -> -> ->. reflexivity.
Qed.

Lemma handleSendMessage_changes (r : State) (w : World) :
  accepted r -> handleSendMessage r w <> w.
Proof.
  intros Ha He.
  apply (f_equal (fun x => List.length (messages (state x)))) in He.
  rewrite (handleSendMessage_accepted w Ha) in He. simpl in He.
  rewrite length_app in He. simpl in He. lia.
Qed.

(** X1.  A key press sends only when the key is Enter: with any other key
    the handler leaves the component as it is, however good the input is, and
    so does any run of such key presses. *)
Theorem only_enter_sends (r : State) (key : jsstring) (w : World) :
  key <> lit "Enter" ->
  handleKeyPress r key w = w
  /\ step w (KeyPress key) = w
  /\ forall n, run (repeat (KeyPress key) n) w = w.
Proof.
  intros Hk.
  assert (He : eqb key (lit "Enter") = false).
  { destruct (eqb key (lit "Enter")) eqn:E; [|reflexivity].
    apply eqb_eq in E. contradiction. }
  assert (Hs : forall r', handleKeyPress r' key w = w).
  { intros r'. unfold handleKeyPress. now rewrite He. }
  split; [apply Hs|]. split; [apply Hs|].
  induction n as [|n IH]; [reflexivity|].
  unfold run in *. cbn [repeat fold_left step]. now rewrite Hs.
Qed.

Lemma only_enter_sends_witness :
  let w := run [Change (lit "red shoes")] (mount 0) in
  accepted (state w)
  /\ step w (KeyPress (lit "enter")) = w
  /\ step w (KeyPress (lit "Enter")) <> w.
Proof.
  intros w.
  assert (Hk : lit "enter" <> lit "Enter") by discriminate.
  split; [reflexivity|]. split.
  - exact (proj1 (proj2 (only_enter_sends (state w) w Hk))).
  - apply handleSendMessage_changes. reflexivity.
Defined.

(** X2.  The send handler does nothing exactly when the input consists of
    white-space characters only (the empty input included); any other input
    changes the component. *)
Theorem send_ignored_iff_blank (r : State) (w : World) :
  handleSendMessage r w = w <-> forallb isWhiteSpace (inputValue r) = true.
Proof.
  rewrite <- trim_nil_iff. split.
  - intros He. destruct (accepted_or_rejected r) as [Ha|Hr].
    + exfalso. exact (handleSendMessage_changes Ha He).
    + now apply not_true_iff.
  - intros Ht. apply handleSendMessage_rejected. unfold rejected.
    now rewrite Ht.
Qed.

Lemma send_ignored_iff_blank_witness :
  let r := {| messages := initialMessages 0;
              inputValue := [9; 32; 160; 12288]%N |} in
  handleSendMessage r (mount 0) = mount 0.
Proof.
  intros r. exact (proj2 (send_ignored_iff_blank r (mount 0)) eq_refl).
Defined.

Lemma greeting_not_blank : not_ (trim greeting) = false.
Proof. reflexivity. Qed.

Lemma replyText_not_blank : not_ (trim replyText) = false.
Proof. reflexivity. Qed.

(** X3.  No message in the log is blank: the greeting and the canned reply
    are not, and a user message is only appended when its text has a
    character that is not white space. *)
Theorem log_contents_never_blank (w : World) :
  reachable w ->
  Forall (fun m => not_ (trim (content m)) = false) (messages (state w)).
Proof.
  revert w. apply reachable_ind.
  - intros t0. constructor; [exact greeting_not_blank|constructor].
  - intros w e _ H.
    assert (Hs : Forall (fun m => not_ (trim (content m)) = false)
                   (messages (state (handleSendMessage (state w) w)))).
    { destruct (accepted_or_rejected (state w)) as [Ha|Hr].
      - rewrite (handleSendMessage_accepted w Ha). cbn [state messages].
        apply Forall_app. split; [exact H|].
        constructor; [exact Ha|constructor].
      - now rewrite (handleSendMessage_rejected w Hr). }
    destruct e as [value|key| |ms]; cbn [step].
    + exact H.
    + unfold handleKeyPress. destruct (eqb key (lit "Enter")); assumption.
    + exact Hs.
    + rewrite elapse_messages. apply Forall_app. split; [exact H|].
      eapply Forall_impl; [|apply replies_canned].
      intros m [_ Hm]. rewrite Hm. exact replyText_not_blank.
Qed.

Lemma log_contents_never_blank_witness :
  let w := run [Change (lit " a "); Click; Elapse 1000] (mount 0) in
  Forall (fun m => not_ (trim (content m)) = false) (messages (state w)).
Proof.
  intros w. apply log_contents_never_blank.
  exists 0, [Change (lit " a "); Click; Elapse 1000]. reflexivity.
Defined.

Lemma StronglySorted_app (A : Type) (R : A -> A -> Prop) (l l' : list A) :
  StronglySorted R l -> StronglySorted R l' ->
  (forall x y, In x l -> In y l' -> R x y) ->
  StronglySorted R (l ++ l').
Proof.
  induction 1 as [|x l Hl IH Hx]; intros Hl' Hc; simpl; [exact Hl'|].
  constructor.
  - apply IH; [exact Hl'|]. intros a b Ha Hb. apply Hc; [now right|exact Hb].
  - apply Forall_app. split; [exact Hx|].
    apply Forall_forall. intros y Hy. apply Hc; [now left|exact Hy].
Qed.

Lemma replies_after (l : list Timer) (c : nat) :
  Forall (fun m => c <= timestamp m) (replies c l).
Proof.
  revert c. induction l as [|t l IH]; intros c; simpl; constructor.
  - simpl. lia.
  - eapply Forall_impl; [|apply IH]. intros m Hm. simpl in Hm. lia.
Qed.

Lemma replies_earlier (l : list Timer) (c : nat) :
  StronglySorted earlier (replies c l).
Proof.
  revert c. induction l as [|t l IH]; intros c; simpl; constructor.
  - apply IH.
  - eapply Forall_impl; [|apply replies_after].
    intros m Hm. unfold earlier. simpl in *. exact Hm.
Qed.

Lemma replies_before (l : list Timer) (c target : nat) :
  c <= target ->
  Forall (fun t => due t <= target) l ->
  Forall (fun m => timestamp m <= target) (replies c l).
Proof.
  revert c. induction l as [|t l IH]; intros c Hc Hl; simpl; constructor.
  - inversion Hl; subst. simpl. lia.
  - inversion Hl; subst. apply IH; [lia|assumption].
Qed.

(** X4.  Time stamps in the log never go backwards and never lie in the
    future: each message is stamped no earlier than the one before it and no
    later than the current time. *)
Theorem timestamps_never_go_back (w : World) :
  reachable w ->
  StronglySorted earlier (messages (state w))
  /\ Forall (fun m => timestamp m <= now w) (messages (state w)).
Proof.
  revert w. apply reachable_ind.
  - intros t0. split.
    + constructor; constructor.
    + constructor; [simpl; lia|constructor].
  - intros w e _ [Hs Hn].
    assert (Hsend : StronglySorted earlier
                      (messages (state (handleSendMessage (state w) w)))
                    /\ Forall (fun m => timestamp m <= now (handleSendMessage (state w) w))
                         (messages (state (handleSendMessage (state w) w)))).
    { destruct (accepted_or_rejected (state w)) as [Ha|Hr].
      - rewrite (handleSendMessage_accepted w Ha). cbn [state messages now].
        split.
        + apply StronglySorted_app; [exact Hs|constructor; constructor|].
          intros x y Hx [<-|[]]. unfold earlier. simpl.
          rewrite Forall_forall in Hn. now apply Hn.
        + apply Forall_app. split; [exact Hn|].
          constructor; [simpl; lia|constructor].
      - rewrite (handleSendMessage_rejected w Hr). now split. }
    destruct e as [value|key| |ms]; cbn [step].
    + now split.
    + unfold handleKeyPress. destruct (eqb key (lit "Enter")); [exact Hsend|now split].
    + exact Hsend.
    + rewrite elapse_messages, elapse_now. split.
      * apply StronglySorted_app; [exact Hs|apply replies_earlier|].
        intros x y Hx Hy. unfold earlier.
        rewrite Forall_forall in Hn. specialize (Hn x Hx).
        pose proof (replies_after (filter (isDue (now w + ms)) (timers w)) (now w)) as Ha.
        rewrite Forall_forall in Ha. specialize (Ha y Hy). lia.
      * apply Forall_app. split.
        -- eapply Forall_impl; [|exact Hn]. intros m Hm. simpl in Hm. lia.
        -- apply replies_before; [lia|].
           apply Forall_forall. intros t Ht. apply filter_In in Ht.
           destruct Ht as [_ Ht]. unfold isDue in Ht. now apply Nat.leb_le.
Qed.

Lemma timestamps_never_go_back_witness :
  let w := run [Change (lit "a"); Click; Elapse 400; Change (lit "b"); Click;
                Elapse 2000] (mount 3) in
  StronglySorted earlier (messages (state w))
  /\ Forall (fun m => timestamp m <= now w) (messages (state w)).
Proof.
  intros w. apply timestamps_never_go_back.
  exists 3, [Change (lit "a"); Click; Elapse 400; Change (lit "b"); Click;
             Elapse 2000]. reflexivity.
Defined.

(** X5.  Typing and waiting do not interfere: a reply that arrives while
    the user is typing leaves the typed text alone, and typing changes
    neither the log nor the pending replies, so the two events can be
    swapped. *)
Theorem typing_commutes_with_waiting (value : jsstring) (ms : nat) (w : World) :
  step (step w (Change value)) (Elapse ms)
  = step (step w (Elapse ms)) (Change value).
Proof.
  cbn [step]. apply world_eq.
  - cbn [setInputValue state messages]. rewrite !elapse_messages. reflexivity.
  - cbn [setInputValue state inputValue]. rewrite elapse_inputValue. reflexivity.
  - reflexivity.
  - cbn [setInputValue timers]. rewrite !elapse_timers. reflexivity.
Qed.

Lemma replies_stamped (l : list Timer) (c : nat) :
  StronglySorted due_le l ->
  Forall (fun t => c <= due t) l ->
  replies c l = map stamp l.
Proof.
  intros Hs. revert c. induction Hs as [|t l Hl IH Ht]; intros c Hc; simpl.
  - reflexivity.
  - inversion Hc as [|? ? Hct Hcl]; subst.
    rewrite Nat.max_r by exact Hct. rewrite IH; [reflexivity|exact Ht].
Qed.

Lemma filter_due_partition (l : list Timer) (target : nat) :
  StronglySorted due_le l ->
  filter (isDue target) l ++ filter (fun t => negb (isDue target t)) l = l.
Proof.
  induction 1 as [|t l Hl IH Ht]; simpl; [reflexivity|].
  destruct (isDue target t) eqn:E; simpl.
  - now rewrite IH.
  - assert (Hn : Forall (fun x => isDue target x = false) l).
    { eapply Forall_impl; [|exact Ht]. intros x Hx.
      unfold isDue, due_le in *. apply Nat.leb_gt. apply Nat.leb_gt in E. lia. }
    rewrite (filter_none _ Hn). simpl. f_equal.
    apply filter_all. eapply Forall_impl; [|exact Hn].
    intros x Hx. simpl in Hx. now rewrite Hx.
Qed.

Lemma filter_due_later (l : list Timer) (t1 t2 : nat) :
  t1 <= t2 ->
  StronglySorted due_le l ->
  filter (isDue t1) l
    ++ filter (isDue t2) (filter (fun t => negb (isDue t1 t)) l)
  = filter (isDue t2) l.
Proof.
  intros H12. induction 1 as [|t l Hl IH Ht]; simpl; [reflexivity|].
  destruct (isDue t1 t) eqn:E1; simpl.
  - assert (E2 : isDue t2 t = true).
    { unfold isDue in *. apply Nat.leb_le. apply Nat.leb_le in E1. lia. }
    rewrite E2, IH. reflexivity.
  - assert (Hn : Forall (fun x => isDue t1 x = false) l).
    { eapply Forall_impl; [|exact Ht]. intros x Hx.
      unfold isDue, due_le in *. apply Nat.leb_gt. apply Nat.leb_gt in E1. lia. }
    rewrite (filter_none _ Hn) in IH. simpl in IH.
    rewrite (filter_none _ Hn). simpl. now rewrite IH.
Qed.

Lemma filter_not_due_later (l : list Timer) (t1 t2 : nat) :
  t1 <= t2 ->
  filter (fun t => negb (isDue t2 t)) (filter (fun t => negb (isDue t1 t)) l)
  = filter (fun t => negb (isDue t2 t)) l.
Proof.
  intros H12. induction l as [|t l IH]; simpl; [reflexivity|].
  destruct (isDue t1 t) eqn:E1; simpl.
  - assert (E2 : isDue t2 t = true).
    { unfold isDue in *. apply Nat.leb_le. apply Nat.leb_le in E1. lia. }
    rewrite E2. simpl. exact IH.
  - now rewrite IH.
Qed.

(** In a reachable world, the messages that a wait appends are the replies
    of the callbacks that fell due, each stamped with its due time. *)
Lemma elapse_messages_stamped (ms : nat) (w : World) :
  reachable w ->
  messages (state (elapse ms w))
  = messages (state w) ++ map stamp (filter (isDue (now w + ms)) (timers w)).
Proof.
  intros Hr. rewrite elapse_messages. f_equal.
  apply replies_stamped.
  - apply StronglySorted_filter. exact (reachable_in_order Hr).
  - pose proof (reachable_pending Hr) as Hp. unfold timers_pending in Hp.
    rewrite Forall_forall in *. intros t Ht. apply filter_In in Ht.
    specialize (Hp t (proj1 Ht)). simpl in Hp. lia.
Qed.

(** X6.  Waiting in two steps is the same as waiting once for the sum: the
    same replies are appended, with the same ids and time stamps, and the same
    callbacks stay queued. *)
Theorem waiting_adds_up (a b : nat) (w : World) :
  reachable w ->
  step (step w (Elapse a)) (Elapse b) = step w (Elapse (a + b)).
Proof.
  intros Hr. cbn [step].
  pose proof (reachable_step (Elapse a) Hr) as Hr'. cbn [step] in Hr'.
  apply world_eq.
  - rewrite (elapse_messages_stamped b Hr'), !(elapse_messages_stamped _ Hr).
    rewrite elapse_timers, elapse_now, <- app_assoc, <- map_app.
    rewrite Nat.add_assoc.
    rewrite filter_due_later; [reflexivity|lia|exact (reachable_in_order Hr)].
  - now rewrite !elapse_inputValue.
  - rewrite !elapse_now. lia.
  - rewrite !elapse_timers, elapse_now, Nat.add_assoc.
    apply filter_not_due_later. lia.
Qed.

Lemma waiting_adds_up_witness :
  let w := run [Change (lit "a"); Click; Elapse 400; Change (lit "b"); Click]
             (mount 0) in
  step (step w (Elapse 700)) (Elapse 900) = step w (Elapse (700 + 900)).
Proof.
  intros w. apply waiting_adds_up.
  exists 0, [Change (lit "a"); Click; Elapse 400; Change (lit "b"); Click].
  reflexivity.
Defined.

Lemma userMessages_stamped (l : list Timer) : userMessages (map stamp l) = [].
Proof. induction l as [|t l IH]; simpl; [reflexivity|exact IH]. Qed.

Lemma botMessages_stamped (l : list Timer) : botMessages (map stamp l) = map stamp l.
Proof.
  induction l as [|t l IH]; simpl; [reflexivity|]. now rewrite IH.
Qed.

Lemma label_stamped (l : list Timer) : map label (map stamp l) = map promise l.
Proof. rewrite map_map. reflexivity. Qed.

Lemma tl_app (A : Type) (l l' : list A) : l <> [] -> tl (l ++ l') = tl l ++ l'.
Proof. destruct l; [congruence|reflexivity]. Qed.

Lemma app_not_nil (A : Type) (l l' : list A) : l <> [] -> l ++ l' <> [].
Proof. destruct l; [congruence|discriminate]. Qed.

Lemma reachable_paired (w : World) :
  reachable w ->
  botMessages (messages (state w)) <> []
  /\ map answer (userMessages (messages (state w)))
     = map label (tl (botMessages (messages (state w))))
         ++ map promise (timers w).
Proof.
  revert w. apply reachable_ind.
  - intros t0. split; [discriminate|reflexivity].
  - intros w e Hr [Hb Hp].
    assert (Hs : botMessages (messages (state (handleSendMessage (state w) w))) <> []
                 /\ map answer (userMessages (messages (state (handleSendMessage (state w) w))))
                    = map label (tl (botMessages (messages (state (handleSendMessage (state w) w)))))
                        ++ map promise (timers (handleSendMessage (state w) w))).
    { destruct (accepted_or_rejected (state w)) as [Ha|Hj].
      - rewrite (handleSendMessage_accepted w Ha). cbn [state messages timers].
        unfold userMessages, botMessages in *. rewrite !filter_app. simpl.
        rewrite app_nil_r, !map_app, Hp, <- app_assoc. split; [exact Hb|].
        do 2 f_equal. unfold answer, promise. simpl.
        replace (List.length (messages (state w)) + 1 + 1)
          with (List.length (messages (state w)) + 2) by lia.
        reflexivity.
      - rewrite (handleSendMessage_rejected w Hj). now split. }
    destruct e as [value|key| |ms]; cbn [step].
    + now split.
    + unfold handleKeyPress. destruct (eqb key (lit "Enter")); [exact Hs|now split].
    + exact Hs.
    + rewrite (elapse_messages_stamped ms Hr), elapse_timers.
      unfold userMessages, botMessages in *. rewrite !filter_app.
      fold (userMessages (map stamp (filter (isDue (now w + ms)) (timers w)))).
      fold (botMessages (map stamp (filter (isDue (now w + ms)) (timers w)))).
      rewrite userMessages_stamped, botMessages_stamped, app_nil_r.
      split; [now apply app_not_nil|].
      rewrite tl_app by exact Hb.
      rewrite map_app, label_stamped, <- app_assoc, <- map_app.
      rewrite filter_due_partition by exact (reachable_in_order Hr).
      exact Hp.
Qed.

(** X7.  Replies answer user messages in order.  The k-th reply after the
    greeting carries the id of the k-th user message plus one and, with the
    callback running the moment it is due, that message's time plus 1000 ms;
    the user messages not yet answered are the ones the queued callbacks
    stand for, in the same order.  This holds however the sends overlap. *)
Theorem replies_pair_with_user_messages (w : World) :
  reachable w ->
  map answer (userMessages (messages (state w)))
  = map label (tl (botMessages (messages (state w))))
      ++ map promise (timers w).
Proof. intros Hr. apply (reachable_paired Hr). Qed.

Lemma replies_pair_with_user_messages_witness :
  let w := run [Change (lit "a"); Click; Elapse 400; Change (lit "b"); Click;
                Elapse 600] (mount 0) in
  map answer (userMessages (messages (state w))) = [(3, 1000); (4, 1400)]
  /\ map label (tl (botMessages (messages (state w)))) = [(3, 1000)]
  /\ map promise (timers w) = [(4, 1400)].
Proof.
  intros w.
  assert (Hr : reachable w).
  { exists 0, [Change (lit "a"); Click; Elapse 400; Change (lit "b"); Click;
               Elapse 600]. reflexivity. }
  pose proof (replies_pair_with_user_messages Hr) as H.
  split; [exact H|]. split; reflexivity.
Defined.

Lemma numbered_app (l l' : list Message) (base : nat) :
  numbered base (l ++ l') <-> numbered base l /\ numbered (base + List.length l) l'.
Proof.
  revert base. induction l as [|m l IH]; intros base; simpl.
  - rewrite Nat.add_0_r. tauto.
  - rewrite IH. replace (S base + List.length l) with (base + S (List.length l)) by lia.
    tauto.
Qed.

Lemma numbered_replies (l : list Timer) (c base : nat) :
  Forall (fun t => List.length (closure_messages t) < base) l ->
  numbered base (replies c l).
Proof.
  revert c base. induction l as [|t l IH]; intros c base Hl; simpl; [exact I|].
  inversion Hl as [|? ? Ht Hl']; subst. split.
  - split; [lia|discriminate].
  - apply IH. eapply Forall_impl; [|exact Hl']. intros x Hx. simpl in Hx. lia.
Qed.

Lemma numbered_nth (l : list Message) (base i : nat) (m : Message) :
  numbered base l ->
  nth_error l i = Some m ->
  id m <= base + i + 1 /\ (isBot m = false -> id m = base + i + 1).
Proof.
  revert base i. induction l as [|x l IH]; intros base [|i] Hn Hi; simpl in *;
    try discriminate.
  - inversion Hi; subst. rewrite Nat.add_0_r. exact (proj1 Hn).
  - destruct (IH (S base) i (proj2 Hn) Hi) as [H1 H2].
    split; [lia|]. intros Hb. specialize (H2 Hb). lia.
Qed.

Lemma reachable_numbered (w : World) :
  reachable w ->
  numbered 0 (messages (state w))
  /\ Forall (fun t => List.length (closure_messages t)
                      < List.length (messages (state w))) (timers w).
Proof.
  revert w. apply reachable_ind.
  - intros t0. split; [|constructor]. simpl. split; [|exact I].
    split; [lia|discriminate].
  - intros w e _ [Hn Ht].
    assert (Hs : numbered 0 (messages (state (handleSendMessage (state w) w)))
                 /\ Forall (fun t => List.length (closure_messages t)
                      < List.length (messages (state (handleSendMessage (state w) w))))
                      (timers (handleSendMessage (state w) w))).
    { destruct (accepted_or_rejected (state w)) as [Ha|Hj].
      - rewrite (handleSendMessage_accepted w Ha). cbn [state messages timers].
        split.
        + apply numbered_app. split; [exact Hn|]. simpl.
          split; [|exact I]. split; [lia|intros _; lia].
        + rewrite length_app. simpl. apply Forall_app. split.
          * eapply Forall_impl; [|exact Ht]. intros t H. simpl in H. lia.
          * constructor; [simpl; lia|constructor].
      - rewrite (handleSendMessage_rejected w Hj). now split. }
    destruct e as [value|key| |ms]; cbn [step].
    + now split.
    + unfold handleKeyPress. destruct (eqb key (lit "Enter")); [exact Hs|now split].
    + exact Hs.
    + rewrite elapse_messages, elapse_timers. split.
      * apply numbered_app. split; [exact Hn|]. simpl.
        apply numbered_replies. rewrite Forall_forall in *.
        intros t Hin. apply filter_In in Hin. exact (Ht t (proj1 Hin)).
      * rewrite length_app. rewrite Forall_forall in *.
        intros t Hin. apply filter_In in Hin.
        specialize (Ht t (proj1 Hin)). simpl in Ht. lia.
Qed.

Lemma numbered_users (l : list Message) (base : nat) :
  numbered base l ->
  NoDup (map id (userMessages l))
  /\ Forall (fun m => base < id m) (userMessages l).
Proof.
  revert base. induction l as [|m l IH]; intros base Hn; simpl.
  - split; constructor.
  - destruct Hn as [[_ Hm] Hl]. destruct (IH (S base) Hl) as [Hd Hf].
    assert (Hf' : Forall (fun x => base < id x) (userMessages l)).
    { eapply Forall_impl; [|exact Hf]. intros x Hx. simpl in Hx. lia. }
    destruct (isBot m); simpl; [now split|].
    specialize (Hm eq_refl). split.
    + constructor; [|exact Hd]. intros Hin. apply in_map_iff in Hin.
      destruct Hin as (x & Hx & Hin). rewrite Forall_forall in Hf.
      specialize (Hf x Hin). simpl in Hf. lia.
    + constructor; [lia|exact Hf'].
Qed.

Lemma NoDup_map_succ (l : list nat) :
  NoDup l -> NoDup (map (fun n => n + 1) l).
Proof.
  induction 1 as [|x l Hx Hl IH]; simpl; constructor; [|exact IH].
  intros Hin. apply in_map_iff in Hin. destruct Hin as (y & Hy & Hin).
  assert (y = x) by lia. subst. contradiction.
Qed.

Lemma run_app (es es' : list event) (w : World) :
  run (es ++ es') w = run es' (run es w).
Proof. unfold run. apply fold_left_app. Qed.

Lemma turn_ids (w : World) (n : nat) (t : jsstring * nat) :
  timers w = [] ->
  ids w = seq 1 n ->
  1000 <= snd t ->
  timers (run (turn t) w) = []
  /\ ids (run (turn t) w) = seq 1 (n + if passes (fst t) then 2 else 0).
Proof.
  destruct t as [text wait]. cbn [fst snd]. intros Ht Hi Hw.
  assert (Hn : List.length (messages (state w)) = n).
  { unfold ids in Hi. rewrite <- (length_map id), Hi. apply length_seq. }
  unfold turn, run. cbn [fst snd fold_left step].
  set (w1 := setInputValue text w).
  unfold passes. destruct (not_ (trim text)) eqn:E; cbn [negb].
  - assert (Hj : rejected (state w1)) by exact E.
    rewrite (handleSendMessage_rejected w1 Hj).
    unfold ids. rewrite elapse_timers, elapse_messages.
    cbn [w1 setInputValue timers state messages now]. rewrite Ht.
    cbn [filter replies]. rewrite app_nil_r, Nat.add_0_r. split; [reflexivity|exact Hi].
  - assert (Ha : accepted (state w1)) by exact E.
    rewrite (handleSendMessage_accepted w1 Ha).
    unfold ids. rewrite elapse_timers, elapse_messages.
    cbn [w1 setInputValue timers state messages now inputValue]. rewrite Ht.
    cbn [app filter]. unfold isDue at 1 2. cbn [due].
    replace (now w + 1000 <=? now w + wait) with true
      by (symmetry; apply Nat.leb_le; lia).
    cbn [negb replies closure_messages]. split; [reflexivity|].
    rewrite !map_app. fold (ids w). rewrite Hi.
    cbn [map id userMessage botResponse messages]. rewrite Hn.
    replace (n + 2) with (n + 1 + 1) by lia.
    rewrite (seq_app (n + 1) 1 1), (seq_app n 1 1). cbn [seq].
    replace (1 + n) with (n + 1) by lia.
    replace (1 + (n + 1)) with (n + 1 + 1) by lia. reflexivity.
Qed.

(** X10.  A conversation held one turn at a time, where the user waits at
    least the reply delay after each send, numbers its messages 1, 2, 3, ...
    without gaps or repeats: the greeting and two messages for every send
    that passed the guard.  Turns with blank input add nothing. *)
Theorem unhurried_conversation_ids (t0 : nat) (turns : list (jsstring * nat)) :
  Forall (fun t => 1000 <= snd t) turns ->
  timers (run (conversation turns) (mount t0)) = []
  /\ ids (run (conversation turns) (mount t0)) = seq 1 (1 + 2 * sent turns)
  /\ NoDup (ids (run (conversation turns) (mount t0))).
Proof.
  intros Hw.
  assert (H : timers (run (conversation turns) (mount t0)) = []
              /\ ids (run (conversation turns) (mount t0))
                 = seq 1 (1 + 2 * sent turns)).
  { induction turns as [|t turns IH] using rev_ind.
    - split; reflexivity.
    - apply Forall_app in Hw. destruct Hw as [Hw Ht].
      inversion Ht as [|? ? Ht' _]; subst.
      destruct (IH Hw) as [IHt IHi].
      unfold conversation, sent in *.
      rewrite flat_map_app, run_app, filter_app, length_app.
      cbn [flat_map]. rewrite app_nil_r.
      destruct (@turn_ids _ _ t IHt IHi Ht') as [H1 H2].
      split; [exact H1|]. rewrite H2. f_equal. cbn [filter].
      destruct (passes (fst t)); simpl; lia. }
  destruct H as [H1 H2]. split; [exact H1|]. split; [exact H2|].
  rewrite H2. apply seq_NoDup.
Qed.

Lemma unhurried_conversation_ids_witness :
  ids (run (conversation [(lit "red shoes", 1000); (lit "  ", 1500);
                          (lit "blue hat", 2500)]) (mount 0))
  = [1; 2; 3; 4; 5].
Proof.
  refine (proj1 (proj2 (@unhurried_conversation_ids 0
            [(lit "red shoes", 1000); (lit "  ", 1500); (lit "blue hat", 2500)] _))).
  repeat constructor; simpl; lia.
Defined.

End SessionLog.

(** ** More about the product grid: stars and controls *)
Module CatalogueControls.
Import JS ProductGrid GridControls.

Lemma stars_of_floor (q : N) :
  map (fun i => (i <? q)%N) [0; 1; 2; 3; 4]%N
  = repeat true (N.to_nat (N.min 5 q)) ++ repeat false (5 - N.to_nat (N.min 5 q)).
Proof.
  destruct (N.lt_ge_cases q 5) as [Hq|Hq].
  - assert (H : (q = 0 \/ q = 1 \/ q = 2 \/ q = 3 \/ q = 4)%N) by lia.
    destruct H as [->|[->|[->|[->| ->]]]]; reflexivity.
  - rewrite N.min_l by exact Hq. cbn [map N.to_nat Pos.to_nat Pos.iter_op].
    assert (H : forall i, (i < 5)%N -> (i <? q)%N = true).
    { intros i Hi. apply N.ltb_lt. lia. }
    rewrite !H by lia. reflexivity.
Qed.

(** X11.  A card always shows five stars, the filled ones first: as many
    as the whole part of the rating, at most five; a rating below 1 fills
    none and a rating of 5 or more fills all. *)
Theorem stars_show_whole_rating (p : Product) :
  List.length (renderStars p) = 5
  /\ renderStars p = repeat true (filled p) ++ repeat false (5 - filled p)
  /\ filled p <= 5
  /\ stars (renderCard p) = renderStars p.
Proof.
  split; [reflexivity|]. split; [apply stars_of_floor|]. split; [|reflexivity].
  unfold filled. lia.
Qed.

(** X12.  Exactly one of the two layout buttons is highlighted, the one of
    the current layout, and the grid's column classes go with it; a click on
    a layout button highlights that button whatever was shown before. *)
Theorem one_layout_button_is_active (s : State) :
  ((grid_button (render s) = Default /\ list_button (render s) = Ghost
    /\ viewMode s = ViewGrid
    /\ grid_className (render s)
       = lit "grid grid-cols-1 md:grid-cols-2 lg:grid-cols-3 xl:grid-cols-4 gap-6")
   \/ (grid_button (render s) = Ghost /\ list_button (render s) = Default
       /\ viewMode s = ViewList
       /\ grid_className (render s) = lit "grid grid-cols-1 gap-4"))
  /\ grid_button (render (step s ClickGrid)) = Default
  /\ list_button (render (step s ClickList)) = Default.
Proof.
  split; [|split; reflexivity].
  destruct s as [[|] sort]; [left|right]; repeat split.
Qed.

Lemma grid_run_filter (f : event -> bool) (es : list event) (e : event) :
  filter f (es ++ [e]) = if f e then filter f es ++ [e] else filter f es.
Proof.
  rewrite filter_app. simpl. destruct (f e); [reflexivity|apply app_nil_r].
Qed.

(** X13.  The two controls do not affect each other: the layout after any
    events is the one that the layout clicks alone produce, and the sort value
    is the one that the picks alone produce. *)
Theorem sort_and_layout_are_independent (es : list event) :
  viewMode (run es) = viewMode (run (filter isLayout es))
  /\ sortBy (run es) = sortBy (run (filter isPick es)).
Proof.
  induction es as [|e es [IHv IHs]] using rev_ind; [split; reflexivity|].
  rewrite !grid_run_filter, ProductCatalogView.grid_run_snoc.
  destruct e as [n| |]; cbn [isLayout isPick]; rewrite ?ProductCatalogView.grid_run_snoc;
    cbn [step].
  - destruct (nth_error selectItems n) as [[value label]|]; split; auto.
  - split; [reflexivity|exact IHs].
  - split; [reflexivity|exact IHs].
Qed.

End CatalogueControls.

(** ** Sends from a render that is no longer current *)
Module StaleRenders.
Import JS JSFacts ChatAssistant ChatAssistantFacts Session SessionLog Rendering.

Lemma play_snoc (acts : list action) (a : action) (c : Component) :
  play (acts ++ [a]) c = act (play acts c) a.
Proof. unfold play. now rewrite fold_left_app. Qed.

Lemma playable_start (t0 : nat) : playable (start t0).
Proof. exists t0, []. reflexivity. Qed.

Lemma playable_act (c : Component) (a : action) :
  playable c -> playable (act c a).
Proof.
  intros (t0 & acts & ->). exists t0, (acts ++ [a]). now rewrite play_snoc.
Qed.

Lemma playable_play (c : Component) (acts : list action) :
  playable c -> playable (play acts c).
Proof.
  intros Hc. induction acts as [|a acts IH] using rev_ind; [exact Hc|].
  rewrite play_snoc. now apply playable_act.
Qed.

Lemma playable_ind (P : Component -> Prop) :
  (forall t0, P (start t0)) ->
  (forall c a, playable c -> P c -> P (act c a)) ->
  forall c, playable c -> P c.
Proof.
  intros Hs Ha c (t0 & acts & ->).
  induction acts as [|a acts IH] using rev_ind.
  - apply Hs.
  - rewrite play_snoc. apply Ha; [|exact IH].
    exists t0, acts. reflexivity.
Qed.







Lemma bounded_app (l l' : list Message) (base : nat) :
  bounded base (l ++ l') <-> bounded base l /\ bounded (base + List.length l) l'.
Proof.
  revert base. induction l as [|m l IH]; intros base; simpl.
  - rewrite Nat.add_0_r. tauto.
  - rewrite IH.
    replace (S base + List.length l) with (base + S (List.length l)) by lia.
    tauto.
Qed.

Lemma bounded_replies (l : list Timer) (c base : nat) :
  Forall (fun t => List.length (closure_messages t) < base) l ->
  bounded base (replies c l).
Proof.
  revert c base. induction l as [|t l IH]; intros c base Hl; simpl; [exact I|].
  inversion Hl as [|? ? Ht Hl']; subst. split; [lia|].
  apply IH. eapply Forall_impl; [|exact Hl']. intros x Hx. simpl in Hx. lia.
Qed.

Lemma bounded_nth (l : list Message) (base i : nat) (m : Message) :
  bounded base l -> nth_error l i = Some m -> id m <= base + i + 1.
Proof.
  revert base i. induction l as [|x l IH]; intros base [|i] Hb Hi; simpl in *;
    try discriminate.
  - inversion Hi; subst. lia.
  - pose proof (IH (S base) i (proj2 Hb) Hi). lia.
Qed.

(** What the handlers read is never longer than the log: a render shows a
    log of the past, and the log only grows. *)
Lemma playable_bounded (c : Component) :
  playable c ->
  bounded 0 (messages (state (world c)))
  /\ Forall (fun t => List.length (closure_messages t)
                      < List.length (messages (state (world c))))
       (timers (world c))
  /\ List.length (messages (rendered c))
     <= List.length (messages (state (world c))).
Proof.
  revert c. apply playable_ind.
  - intros t0. split; [|split; [constructor|reflexivity]].
    simpl. split; [lia|exact I].
  - intros c a _ (Hb & Ht & Hr).
    assert (Hs : bounded 0 (messages (state (handleSendMessage (rendered c) (world c))))
                 /\ Forall (fun t => List.length (closure_messages t)
                      < List.length (messages (state (handleSendMessage (rendered c) (world c)))))
                      (timers (handleSendMessage (rendered c) (world c)))
                 /\ List.length (messages (rendered c))
                    <= List.length (messages (state (handleSendMessage (rendered c) (world c))))).
    { destruct (accepted_or_rejected (rendered c)) as [Ha|Hj].
      - rewrite (handleSendMessage_accepted (world c) Ha).
        cbn [state messages timers]. rewrite length_app. cbn [List.length].
        split; [|split].
        + apply bounded_app. split; [exact Hb|]. simpl. split; [lia|exact I].
        + apply Forall_app. split.
          * eapply Forall_impl; [|exact Ht]. intros t H. simpl in H. lia.
          * constructor; [simpl; lia|constructor].
        + lia.
      - rewrite (handleSendMessage_rejected (world c) Hj). now split. }
    destruct a as [value| |key|ms|]; cbn [act world rendered].
    + now split.
    + exact Hs.
    + unfold handleKeyPress. destruct (eqb key (lit "Enter")); [exact Hs|now split].
    + rewrite elapse_messages, elapse_timers, length_app. split; [|split].
      * apply bounded_app. split; [exact Hb|]. simpl.
        apply bounded_replies. rewrite Forall_forall in *.
        intros t Hin. apply filter_In in Hin. exact (Ht t (proj1 Hin)).
      * rewrite Forall_forall in *. intros t Hin. apply filter_In in Hin.
        specialize (Ht t (proj1 Hin)). simpl in Ht. lia.
      * lia.
    + split; [exact Hb|split; [exact Ht|reflexivity]].
Qed.

(** X8.  No id runs ahead of the log, whichever render's handlers ran: the
    id of the message at position [i] (counted from 0) is at most [i + 1]. *)
Theorem ids_never_run_ahead (c : Component) (i : nat) (m : Message) :
  playable c ->
  nth_error (messages (state (world c))) i = Some m ->
  id m <= i + 1.
Proof.
  intros Hc Hi. destruct (playable_bounded Hc) as (Hb & _ & _).
  exact (@bounded_nth _ 0 i m Hb Hi).
Qed.

Lemma ids_never_run_ahead_witness :
  let c := play [Input (lit "a"); Rerender; Send; Send; Wait 1000] (start 0) in
  let m := {| id := 2; content := lit "a"; isBot := false; timestamp := 0 |} in
  map (fun x => (id x, isBot x)) (messages (state (world c)))
  = [(1, true); (2, false); (2, false); (3, true); (3, true)]
  /\ nth_error (messages (state (world c))) 2 = Some m
  /\ id m <= 2 + 1.
Proof.
  intros c m.
  assert (Hc : playable c).
  { exists 0, [Input (lit "a"); Rerender; Send; Send; Wait 1000]. reflexivity. }
  assert (Hi : nth_error (messages (state (world c))) 2 = Some m) by reflexivity.
  split; [reflexivity|]. split; [exact Hi|].
  exact (@ids_never_run_ahead c 2 m Hc Hi).
Defined.

Lemma play_rerendering (es : list event) (c : Component) :
  rendered c = state (world c) ->
  play (rerendering es) c
  = {| world := run es (world c); rendered := state (run es (world c)) |}.
Proof.
  revert c. induction es as [|e es IH]; intros c Hc.
  - destruct c as [w r]. simpl in *. now subst.
  - unfold rerendering, play, run in *. cbn [flat_map app fold_left].
    rewrite IH.
    + destruct e; cbn [of_event act world rendered step]; rewrite ?Hc; reflexivity.
    + destruct e; reflexivity.
Qed.

Lemma reachable_ids_distinct (w : World) :
  reachable w ->
  NoDup (map id (userMessages (messages (state w))))
  /\ NoDup (map id (botMessages (messages (state w)))).
Proof.
  intros Hr.
  destruct (reachable_numbered Hr) as [Hn _].
  destruct (@numbered_users _ _ Hn) as [Hu Hpos].
  split; [exact Hu|].
  assert (Hp : map (fun x => id x + 1) (userMessages (messages (state w)))
               = map id (tl (botMessages (messages (state w))))
                   ++ map (fun t => fst (promise t)) (timers w)).
  { pose proof (f_equal (map fst) (proj2 (reachable_paired Hr))) as H.
    rewrite map_app, !map_map in H. exact H. }
  assert (Htl : NoDup (map id (tl (botMessages (messages (state w)))))).
  { apply NoDup_app_remove_r with
      (l' := map (fun t => fst (promise t)) (timers w)).
    rewrite <- Hp. rewrite <- (map_map id (fun n => n + 1)).
    apply NoDup_map_succ. exact Hu. }
  assert (Hge : Forall (fun n => 2 <= n)
                  (map id (tl (botMessages (messages (state w)))))).
  { apply Forall_forall. intros n Hin.
    assert (Hin' : In n (map (fun x => id x + 1) (userMessages (messages (state w))))).
    { rewrite Hp. apply in_or_app. now left. }
    apply in_map_iff in Hin'. destruct Hin' as (x & Hx & Hin').
    rewrite Forall_forall in Hpos. specialize (Hpos x Hin'). simpl in Hpos. lia. }
  destruct Hr as (t0 & es & ->).
  destruct (run_appends es (mount t0)) as [suffix Hs].
  rewrite Hs in *. cbn [mount state messages initialMessages app botMessages
                        filter isBot tl map id] in *.
  constructor; [|exact Htl].
  intros Hin. rewrite Forall_forall in Hge. specialize (Hge 1 Hin). lia.
Qed.

(** X9.  When the component renders again after every event, so that
    every send is made by a handler of the current render, a user message has
    exactly the id of its place in the log counted from 1; no two user
    messages share an id and no two assistant messages share one, so an id
    can then repeat only between a user message and a reply. *)
Theorem rerendered_ids_repeat_only_across_authors (t0 : nat) (es : list event) :
  let l := messages (state (world (play (rerendering es) (start t0)))) in
  (forall i m, nth_error l i = Some m -> isBot m = false -> id m = i + 1)
  /\ NoDup (map id (userMessages l))
  /\ NoDup (map id (botMessages l)).
Proof.
  rewrite (@play_rerendering es (start t0) eq_refl). cbn [world start].
  assert (Hr : reachable (run es (mount t0))) by (exists t0, es; reflexivity).
  split.
  - intros i m Hi Hb. destruct (reachable_numbered Hr) as [Hn _].
    exact (proj2 (@numbered_nth _ 0 i m Hn Hi) Hb).
  - exact (reachable_ids_distinct Hr).
Qed.

Lemma rerendered_ids_repeat_only_across_authors_witness :
  let es := [Change (lit "a"); Click; Change (lit "b"); Click; Elapse 1000] in
  let l := messages (state (world (play (rerendering es) (start 0)))) in
  map (fun x => (id x, isBot x)) l
  = [(1, true); (2, false); (3, false); (3, true); (4, true)]
  /\ NoDup (map id (userMessages l))
  /\ NoDup (map id (botMessages l)).
Proof.
  intros es l. split; [reflexivity|].
  exact (proj2 (rerendered_ids_repeat_only_across_authors 0 es)).
Defined.

(** X14.  A second send right after an accepted one is ignored only once
    the component has rendered again: the new handler reads the emptied input
    and does nothing, by click or by Enter.  The handler of the same render,
    called again before that, reads the old input and the old log: it appends
    a second user message with the same text and id and queues a second
    callback that will give its reply the same id. *)
Theorem second_send_needs_a_rerender (c : Component) :
  accepted (rendered c) ->
  let u := userMessage (rendered c) (now (world c)) in
  let t := {| due := now (world c) + 1000;
              closure_messages := messages (rendered c) |} in
  world (play [Send; Rerender; Send] c) = world (play [Send] c)
  /\ world (play [Send; Rerender; Key (lit "Enter")] c) = world (play [Send] c)
  /\ messages (state (world (play [Send; Send] c)))
     = messages (state (world c)) ++ [u; u]
  /\ timers (world (play [Send; Send] c)) = timers (world c) ++ [t; t].
Proof.
  intros Ha u t.
  pose proof (handleSendMessage_accepted (world c) Ha) as Hs.
  assert (H : world (play [Send; Rerender; Send] c) = world (play [Send] c)).
  { unfold play. cbn [fold_left act world rendered]. rewrite Hs.
    apply handleSendMessage_rejected. reflexivity. }
  split; [exact H|]. split; [exact H|].
  unfold play. cbn [fold_left act world rendered].
  rewrite (handleSendMessage_accepted _ Ha), Hs. cbn [state messages timers now].
  rewrite <- !app_assoc. split; reflexivity.
Qed.

Lemma second_send_needs_a_rerender_witness :
  let c := play [Input (lit "a"); Rerender] (start 0) in
  accepted (rendered c)
  /\ map id (messages (state (world (play [Send; Rerender; Send] c)))) = [1; 2]
  /\ map id (messages (state (world (play [Send; Send] c)))) = [1; 2; 2].
Proof.
  intros c.
  assert (Ha : accepted (rendered c)) by reflexivity.
  destruct (second_send_needs_a_rerender c Ha) as (H1 & _ & H3 & _).
  split; [exact Ha|]. split.
  - exact (f_equal (fun w => map id (messages (state w))) H1).
  - exact (f_equal (map id) H3).
Defined.

End StaleRenders.
